(** * hash_calc: streaming file digests with hexadecimal output

    A shallow embedding of [scripts/hash_calc.cpp]: the C entry point
    [hash_file], which resolves a digest by name, streams a file through it
    in 4096-byte reads and prints the digest as lowercase hexadecimal into a
    caller-supplied buffer, and the optional command-line [main] around it.

    The digests themselves belong to OpenSSL's EVP interface.  They are
    abstracted as the operations of a class, with the laws of the interface
    that a proof needs stated as hypotheses; a small checksum library
    instantiates them. *)

From Stdlib Require Import NArith ZArith Strings.Byte.
From stdpp Require Import gmap strings list.
From Equations Require Import Equations.

Local Open Scope N_scope.

(** ** Machine integers *)

(** [unsigned int] arithmetic wraps modulo [2^32]. *)
Definition u32 (n : N) : N := n mod 2 ^ 32.

(** ** Memory: character arrays *)

(** [store mem i b] is the assignment [mem[i] = b].  An index outside the
    array has no defined behaviour in C; the model stops with [None]. *)
Definition store (mem : list byte) (i : N) (b : byte) : option (list byte) :=
  if decide (N.to_nat i < length mem)%nat then Some (<[N.to_nat i := b]> mem)
  else None.

(** The characters that [std::cout << out] prints for a character array:
    everything before the first NUL.  An array without a NUL is read past its end. *)
Fixpoint c_str (mem : list byte) : option (list byte) :=
  match mem with
  | [] => None
  | b :: mem' => if Byte.eqb b x00 then Some [] else (b ::.) <$> c_str mem'
  end.

(** ** [sprintf(p, "%02x", v)] for an [unsigned char] [v] *)

Definition hex_digits : list byte := String.list_byte_of_string "0123456789abcdef".

Definition hex_digit (n : N) : byte := nth (N.to_nat n) hex_digits x00.

(** The two characters [%02x] prints for a value below 256. *)
Definition hex_hi (v : byte) : byte := hex_digit (Byte.to_N v / 16).
Definition hex_lo (v : byte) : byte := hex_digit (Byte.to_N v mod 16).

(** [sprintf] writes the two digits and the terminating NUL, three
    characters starting at offset [off] of [out]. *)
Definition sprintf_02x (out : list byte) (off : N) (v : byte) : option (list byte) :=
  out ← store out off (hex_hi v);
  out ← store out (off + 1) (hex_lo v);
  store out (off + 2) x00.

(** ** [std::ifstream] *)

(** The part of the stream's state the program observes: the bytes not yet
    read, the fail bit ([!file]) and the count of the last read. *)
Record ifstream := Ifstream {
  unread : list byte;
  failbit : bool;
  gcount : nat
}.

(** [std::ifstream file(path, std::ios::binary)]: a path that cannot be
    opened leaves the stream failed. *)
Definition ifstream_open (fs : gmap string (list byte)) (path : string) : ifstream :=
  match fs !! path with
  | Some bytes => Ifstream bytes false 0
  | None => Ifstream [] true 0
  end.

(** [file.read(buf, n)]: a failed stream reads nothing and has [gcount] 0;
    otherwise up to [n] bytes go to the front of [buf], and fewer than [n]
    of them set the fail (and end-of-file) bit. *)
Definition ifstream_read (n : nat) (file : ifstream) (buf : list byte)
  : ifstream * list byte :=
  if failbit file then (Ifstream (unread file) true 0, buf)
  else
    let chunk := take n (unread file) in
    (Ifstream (drop n (unread file)) (length chunk <? n)%nat (length chunk),
     chunk ++ drop (length chunk) buf).

(** [sizeof(buf)] for [char buf[4096]]. *)
Definition sizeof_buf : nat := 4096.

Arguments sizeof_buf : simpl never.

Lemma sizeof_buf_pos : (0 < sizeof_buf)%nat.
Proof. unfold sizeof_buf. lia. Qed.

Definition inspect {A} (a : A) : {b : A | a = b} := exist _ a eq_refl.

(** What is left of the read loop: the unread bytes, and one more turn while
    the stream has not failed. *)
Definition stream_measure (file : ifstream) : nat :=
  (length (unread file) + if failbit file then 0 else 1)%nat.

(** A read that lets the loop go on consumes input or sets the fail bit. *)
Lemma ifstream_read_decreases n file buf file' buf' :
  (0 < n)%nat →
  ifstream_read n file buf = (file', buf') →
  negb (failbit file') || negb (gcount file' =? 0)%nat = true →
  (stream_measure file' < stream_measure file)%nat.
Proof.
  unfold ifstream_read, stream_measure. intros Hn Hread Hcond.
  destruct (failbit file); simpl in Hread.
  - injection Hread as <- _. simpl in Hcond. discriminate.
  - injection Hread as <- _. simpl in *.
    rewrite length_drop.
    pose proof (length_take (unread file) n) as Htake.
    destruct (Nat.ltb_spec (length (take n (unread file))) n);
      destruct (Nat.eqb_spec (length (take n (unread file))) 0);
      simpl in Hcond; try discriminate; lia.
Qed.

(** ** The digest library and the environment of a call *)

(** The part of the machine outside the program that a call depends on: the
    files that can be opened for reading, whether [EVP_MD_CTX_new] finds
    memory, and the indeterminate initial contents of the two local arrays
    ([buf] of [hash_file], [out] of [main]). *)
Record Env := {
  env_fs : gmap string (list byte);
  env_ctx_new : bool;
  env_buf : list byte;
  env_out : list byte
}.

(** OpenSSL's EVP digest interface, as far as the program uses it: digest
    descriptors, the registry lookup, a context that is initialised for a
    descriptor, fed bytes and finalised into the digest bytes (whose number
    is the [len] that [EVP_DigestFinal_ex] reports), and the header's bound
    on the size of a digest. *)
Class EVP := {
  EVP_MD : Type;
  EVP_MD_CTX : Type;
  EVP_get_digestbyname : string → option EVP_MD;
  EVP_DigestInit_ex : EVP_MD → EVP_MD_CTX;
  EVP_DigestUpdate : EVP_MD_CTX → list byte → EVP_MD_CTX;
  EVP_DigestFinal_ex : EVP_MD_CTX → list byte;
  EVP_MAX_MD_SIZE : N
}.

Section HashCalc.

Context {openssl : EVP}.

(** *** The read loop

    [while (file.read(buf, sizeof(buf)) || file.gcount())
       EVP_DigestUpdate(ctx, buf, file.gcount());] *)
Equations? read_loop (file : ifstream) (buf : list byte) (ctx : EVP_MD_CTX)
  : ifstream * list byte * EVP_MD_CTX by wf (stream_measure file) lt :=
  read_loop file buf ctx with inspect (ifstream_read sizeof_buf file buf) := {
    | exist _ (file', buf') Hread
        with inspect (negb (failbit file') || negb (gcount file' =? 0)%nat) := {
        | exist _ true Hcond :=
            read_loop file' buf'
              (EVP_DigestUpdate ctx (take (gcount file') buf'));
        | exist _ false Hstop := (file', buf', ctx) } }.
Proof.
  eapply ifstream_read_decreases; [apply sizeof_buf_pos | exact Hread | exact Hcond].
Qed.

(** *** The encoding loop

    [for (unsigned int i = 0; i < len; ++i)
       std::sprintf(out + i * 2, "%02x", hash[i]);]

    [i] stays below [len], itself an [unsigned int], so [++i] never
    wraps; [i * 2] is computed in [unsigned int]. *)
Equations? hex_loop (i len : N) (hash out : list byte)
  : option (list byte) by wf (N.to_nat (len - i)) lt :=
  hex_loop i len hash out with inspect (i <? len) := {
    | exist _ true Hlt with hash !! N.to_nat i := {
        | None := None
        | Some v with sprintf_02x out (u32 (i * 2)) v := {
            | None := None
            | Some out' := hex_loop (i + 1) len hash out' } }
    | exist _ false Hge := Some out }.
Proof. apply N.ltb_lt in Hlt. lia. Qed.

(** The capacity test [out_len < len * 2 + 1]: the right-hand side is
    [unsigned int] arithmetic, widened to [size_t] for the comparison. *)
Definition buffer_too_small (out_len len : N) : bool :=
  out_len <? u32 (u32 (len * 2) + 1).

(** *** [hash_file]

    The result is the returned status and the contents of [out] after the
    call, or [None] when a write leaves the array.  The return values of
    the three [EVP_Digest*] calls are not looked at by the program.
    [OpenSSL_add_all_digests] only makes the registry ready for the lookup,
    and [EVP_MD_CTX_free] and the closing of the file change nothing that a
    later step reads; neither appears below. *)
Definition hash_file (env : Env) (algo_name file_path : string)
    (out : list byte) (out_len : N) : option (Z * list byte) :=
  match EVP_get_digestbyname algo_name with
  | None => Some (1%Z, out)
  | Some md =>
    if negb (env_ctx_new env) then Some (1%Z, out)
    else
      let file := ifstream_open (env_fs env) file_path in
      if failbit file then Some (1%Z, out)
      else
        let ctx := EVP_DigestInit_ex md in
        let ctx := (read_loop file (env_buf env) ctx).2 in
        let hash := EVP_DigestFinal_ex ctx in
        let len := N.of_nat (length hash) in
        if buffer_too_small out_len len then Some (1%Z, out)
        else
          out ← hex_loop 0 len hash out;
          out ← store out (u32 (len * 2)) x00;
          Some (0%Z, out)
  end.

(** *** [main] (built with [BUILD_CLI])

    [argc] is the length of [argv].  The result is the exit status with
    what was written to standard output and to standard error. *)
Definition usage (argv0 : string) : list byte :=
  String.list_byte_of_string "usage: " ++ String.list_byte_of_string argv0
    ++ String.list_byte_of_string " <algo> <file>" ++ [x0a].

Definition main (env : Env) (argv : list string)
  : option (Z * list byte * list byte) :=
  if negb (length argv =? 3)%nat then
    argv0 ← argv !! 0%nat;
    Some (1%Z, [], usage argv0)
  else
    algo ← argv !! 1%nat;
    path ← argv !! 2%nat;
    let out := env_out env in
    '(status, out) ← hash_file env algo path out (EVP_MAX_MD_SIZE * 2 + 1);
    if negb (status =? 0)%Z then Some (1%Z, [], [])
    else
      line ← c_str out;
      Some (0%Z, line ++ [x0a], []).

End HashCalc.

(** ** Reference definitions

    What the program is meant to compute, written without loops or buffers:
    the hexadecimal text of a digest, the value a hexadecimal character
    stands for, the digest of a byte sequence fed to a context in one
    piece, and the split of a file into the pieces the reads deliver. *)

Definition hex_encode (digest : list byte) : list byte :=
  flat_map (λ v, [hex_hi v; hex_lo v]) digest.

Fixpoint index_of (c : byte) (l : list byte) : option N :=
  match l with
  | [] => None
  | d :: l' => if Byte.eqb c d then Some 0 else N.succ <$> index_of c l'
  end.

Definition hex_val (c : byte) : option N := index_of c hex_digits.

Definition digest_oneshot `{EVP} (md : EVP_MD) (data : list byte) : list byte :=
  EVP_DigestFinal_ex (EVP_DigestUpdate (EVP_DigestInit_ex md) data).

Equations? chunks (data : list byte) : list (list byte) by wf (length data) lt :=
  chunks [] := [];
  chunks (b :: data) :=
    take sizeof_buf (b :: data) :: chunks (drop sizeof_buf (b :: data)).
Proof. rewrite length_drop. pose proof sizeof_buf_pos. simpl. lia. Qed.

(** The digest of the pieces of a file, fed to a fresh context in order. *)
Definition digest_chunked `{EVP} (md : EVP_MD) (data : list byte) : list byte :=
  EVP_DigestFinal_ex
    (fold_left EVP_DigestUpdate (chunks data) (EVP_DigestInit_ex md)).

(** Two characters spell a byte: both are lowercase hexadecimal digits, and
    their values are the byte's high and low half. *)
Definition encodes (c1 c2 v : byte) : Prop :=
  c1 ∈ hex_digits ∧ c2 ∈ hex_digits ∧
  ∃ hi lo, hex_val c1 = Some hi ∧ hex_val c2 = Some lo ∧
           16 * hi + lo = Byte.to_N v.

(** [out] holds the hexadecimal string of [digest]: byte [i] is spelled at
    positions [2i] and [2i + 1], a NUL follows at [2 * length digest], and
    read as a C string [out] is exactly those characters. *)
Definition holds_hex_string (out digest : list byte) : Prop :=
  (∀ i v, digest !! i = Some v →
     ∃ c1 c2, out !! (2 * i)%nat = Some c1 ∧ out !! (2 * i + 1)%nat = Some c2 ∧
              encodes c1 c2 v) ∧
  out !! (2 * length digest)%nat = Some x00 ∧
  c_str out = Some (take (2 * length digest) out).

(** ** A checksum library

    A small instance of the interface, used to run the program and to
    instantiate the theorems: two additive checksums, of one and of two
    bytes.  A context holds the descriptor and the sum so far. *)
Module Checksum.

Inductive md := Sum8 | Sum16.

Definition get_digestbyname (name : string) : option md :=
  if String.eqb name "sum8" then Some Sum8
  else if String.eqb name "sum16" then Some Sum16
  else None.

Definition byte_of_N (n : N) : byte := default x00 (Byte.of_N n).

Definition update (ctx : md * N) (bytes : list byte) : md * N :=
  (ctx.1, fold_left (λ sum b, sum + Byte.to_N b) bytes ctx.2).

Definition final (ctx : md * N) : list byte :=
  match ctx.1 with
  | Sum8 => [byte_of_N (ctx.2 mod 256)]
  | Sum16 => [byte_of_N (ctx.2 / 256 mod 256); byte_of_N (ctx.2 mod 256)]
  end.

Definition lib : EVP := {|
  EVP_MD := md;
  EVP_MD_CTX := md * N;
  EVP_get_digestbyname := get_digestbyname;
  EVP_DigestInit_ex := λ m, (m, 0);
  EVP_DigestUpdate := update;
  EVP_DigestFinal_ex := final;
  EVP_MAX_MD_SIZE := 64
|}.

(** A machine with a three-byte file, an empty file and a file of 5000
    bytes, longer than one read. *)
Definition env : Env := {|
  env_fs := <["abc.txt" := String.list_byte_of_string "abc"]>
            (<["empty" := []]>
            (<["big" := replicate 5000 x01]> ∅));
  env_ctx_new := true;
  env_buf := replicate 4096 x00;
  env_out := replicate 129 xff
|}.

(** Another machine: the same three bytes under another name, other
    leftovers in the local arrays. *)
Definition env' : Env := {|
  env_fs := <["copy.bin" := String.list_byte_of_string "abc"]> ∅;
  env_ctx_new := true;
  env_buf := replicate 4096 x2a;
  env_out := replicate 129 x00
|}.

End Checksum.


(** * Properties *)

(** ** The option monad *)

Lemma bind_Some {A B} (f : A → option B) (x : A) : Some x ≫= f = f x.
Proof. done. Qed.

Lemma bind_None {A B} (f : A → option B) : None ≫= f = None.
Proof. done. Qed.

(** ** Machine integers and memory *)

Lemma u32_small n : n < 2 ^ 32 → u32 n = n.
Proof. intros Hn. unfold u32. by apply N.mod_small. Qed.

Lemma store_lt mem i b :
  (N.to_nat i < length mem)%nat → store mem i b = Some (<[N.to_nat i := b]> mem).
Proof. intros Hi. unfold store. by rewrite decide_True. Qed.

Lemma store_ge mem i b : (length mem ≤ N.to_nat i)%nat → store mem i b = None.
Proof. intros Hi. unfold store. rewrite decide_False; [done | lia]. Qed.

(** Three neighbouring assignments, as one splice. *)
Lemma insert_three (out : list byte) (o : nat) (a b c : byte) :
  (o + 2 < length out)%nat →
  <[(o + 2)%nat := c]> (<[(o + 1)%nat := b]> (<[o := a]> out)) =
  take o out ++ [a; b; c] ++ drop (o + 3) out.
Proof.
  revert out. induction o as [|o IH]; intros out Hlen.
  - destruct out as [|x [|y [|z rest]]]; simpl in Hlen; try lia. done.
  - destruct out as [|x out]; simpl in Hlen; [lia|].
    simpl. f_equal. apply IH. lia.
Qed.

(** ** [sprintf] and the hexadecimal digits *)

(** [sprintf] stays inside the array exactly when three characters fit at
    the offset, and then replaces just those three. *)
Lemma sprintf_02x_spec out off v :
  sprintf_02x out off v =
  if decide (N.to_nat off + 2 < length out)%nat
  then Some (take (N.to_nat off) out ++ [hex_hi v; hex_lo v; x00]
             ++ drop (N.to_nat off + 3) out)
  else None.
Proof.
  unfold sprintf_02x. case_decide as Hfit.
  - rewrite store_lt by lia. simpl.
    rewrite store_lt by (rewrite length_insert; lia). simpl.
    rewrite store_lt by (rewrite !length_insert; lia).
    replace (N.to_nat (off + 1)) with (N.to_nat off + 1)%nat by lia.
    replace (N.to_nat (off + 2)) with (N.to_nat off + 2)%nat by lia.
    by rewrite insert_three.
  - destruct (decide (N.to_nat off < length out)%nat);
      [rewrite store_lt by done | by rewrite store_ge by lia]. simpl.
    destruct (decide (N.to_nat (off + 1) < length out)%nat);
      [rewrite store_lt by (by rewrite length_insert)
      | by rewrite store_ge by (rewrite length_insert; lia)]. simpl.
    rewrite store_ge; [done|]. rewrite !length_insert. lia.
Qed.

Lemma hex_digit_elem n : n < 16 → hex_digit n ∈ hex_digits.
Proof.
  intros Hn. apply list_elem_of_In, nth_In.
  change (length hex_digits) with 16%nat. lia.
Qed.

(** Both characters of a byte are among [0123456789abcdef]. *)
Lemma hex_hi_elem v : hex_hi v ∈ hex_digits.
Proof.
  apply hex_digit_elem. pose proof (Byte.to_N_bounded v).
  apply N.Div0.div_lt_upper_bound. lia.
Qed.

Lemma hex_lo_elem v : hex_lo v ∈ hex_digits.
Proof. apply hex_digit_elem. apply N.mod_lt. lia. Qed.

Lemma hex_digits_not_nul c : c ∈ hex_digits → c ≠ x00.
Proof.
  intros Hc ->. unfold hex_digits in Hc. cbn in Hc.
  repeat (apply elem_of_cons in Hc as [Hc|Hc]; [discriminate|]).
  by apply elem_of_nil in Hc.
Qed.

(** The two characters of a byte spell its value, high digit first. *)
Lemma hex_val_byte v :
  ∃ hi lo, hex_val (hex_hi v) = Some hi ∧ hex_val (hex_lo v) = Some lo ∧
           hi < 16 ∧ lo < 16 ∧ 16 * hi + lo = Byte.to_N v.
Proof.
  exists (Byte.to_N v / 16), (Byte.to_N v mod 16).
  destruct v; vm_compute; repeat split; congruence.
Qed.

Lemma hex_encode_cons v digest :
  hex_encode (v :: digest) = hex_hi v :: hex_lo v :: hex_encode digest.
Proof. done. Qed.

Lemma hex_encode_length digest :
  length (hex_encode digest) = (2 * length digest)%nat.
Proof. induction digest as [|v digest IH]; simpl; [done | lia]. Qed.

Lemma hex_encode_elem digest c : c ∈ hex_encode digest → c ∈ hex_digits.
Proof.
  induction digest as [|v digest IH]; [by intros ?%elem_of_nil|].
  rewrite hex_encode_cons, !elem_of_cons.
  intros [->|[->|?]]; auto using hex_hi_elem, hex_lo_elem.
Qed.

(** The characters of byte [i] sit at positions [2i] and [2i + 1]. *)
Lemma hex_encode_lookup digest i v :
  digest !! i = Some v →
  hex_encode digest !! (2 * i)%nat = Some (hex_hi v) ∧
  hex_encode digest !! (2 * i + 1)%nat = Some (hex_lo v).
Proof.
  revert i. induction digest as [|w digest IH]; intros i Hi; [done|].
  destruct i as [|i]; simpl in Hi.
  - by injection Hi as ->.
  - replace (2 * S i)%nat with (S (S (2 * i))) by lia.
    rewrite hex_encode_cons. simpl. by apply IH.
Qed.

(** ** C strings *)

Lemma c_str_app text rest :
  Forall (λ c, c ≠ x00) text → c_str (text ++ x00 :: rest) = Some text.
Proof.
  induction 1 as [|c text Hc _ IH]; [done|]. simpl.
  destruct (Byte.eqb c x00) eqn:Heq.
  - by apply Byte.byte_dec_bl in Heq.
  - by rewrite IH.
Qed.

Lemma c_str_hex_encode digest rest :
  c_str (hex_encode digest ++ x00 :: rest) = Some (hex_encode digest).
Proof.
  apply c_str_app, Forall_forall. intros c Hc.
  by apply hex_digits_not_nul, (hex_encode_elem digest).
Qed.

(** ** The text determines the digest *)

(** A byte is determined by its two characters. *)
Lemma hex_hi_lo_inj v w : hex_hi v = hex_hi w → hex_lo v = hex_lo w → v = w.
Proof.
  intros Hhi Hlo.
  destruct (hex_val_byte v) as (hi & lo & Hvhi & Hvlo & _ & _ & Hv).
  destruct (hex_val_byte w) as (hi' & lo' & Hwhi & Hwlo & _ & _ & Hw).
  rewrite Hhi, Hwhi in Hvhi. rewrite Hlo, Hwlo in Hvlo.
  injection Hvhi as ->. injection Hvlo as ->.
  pose proof (Byte.of_to_N v) as Hov. pose proof (Byte.of_to_N w) as How.
  rewrite <- Hv, Hw, How in Hov. by injection Hov.
Qed.

Lemma hex_encode_inj d1 d2 : hex_encode d1 = hex_encode d2 → d1 = d2.
Proof.
  revert d2. induction d1 as [|v d1 IH]; intros [|w d2] Heq; try done.
  rewrite !hex_encode_cons in Heq. injection Heq as Hhi Hlo Hrest.
  f_equal; [by apply hex_hi_lo_inj | by apply IH].
Qed.

Lemma usage_not_nil argv0 : usage argv0 ≠ [].
Proof. done. Qed.

(** One turn of the encoding loop. *)
Lemma hex_loop_step i len hash out :
  hex_loop i len hash out =
  if i <? len then
    v ← hash !! N.to_nat i;
    out' ← sprintf_02x out (u32 (i * 2)) v;
    hex_loop (i + 1) len hash out'
  else Some out.
Proof.
  funelim (hex_loop i len hash out); rewrite ?Hlt, ?Hge;
    repeat match goal with
           | Hw : _ = Some _ |- _ => rewrite Hw; simpl
           | Hw : _ = None |- _ => rewrite Hw; simpl
           end; done.
Qed.

(** ** The encoding loop and the final terminator

    Started at byte [i], the loop followed by [out[len * 2] = 0] stays
    inside [out] exactly when [2 * len + 1] characters fit, and then leaves
    the text of the remaining bytes, the NUL, and the rest of [out] as it
    was. *)
Lemma hex_loop_store i hash out :
  let len := N.of_nat (length hash) in
  i ≤ len → len * 2 + 1 < 2 ^ 32 →
  hex_loop i len hash out ≫= (λ o, store o (u32 (len * 2)) x00) =
  if decide (2 * length hash + 1 ≤ length out)%nat
  then Some (take (2 * N.to_nat i) out
             ++ hex_encode (drop (N.to_nat i) hash)
             ++ x00 :: drop (2 * length hash + 1) out)
  else None.
Proof.
  intros len Hi Hfit.
  remember (N.to_nat (len - i)) as n eqn:Hn. revert i out Hi Hn.
  induction n as [|n IH]; intros i out Hi Hn; rewrite hex_loop_step.
  - assert (i = len) as -> by lia. rewrite N.ltb_irrefl, bind_Some.
    rewrite u32_small by lia.
    replace (N.to_nat len) with (length hash) by lia.
    case_decide.
    + rewrite store_lt by lia.
      replace (N.to_nat (len * 2)) with (2 * length hash)%nat by lia.
      rewrite insert_take_drop by lia. rewrite drop_all.
      by replace (S (2 * length hash)) with (2 * length hash + 1)%nat by lia.
    + by rewrite store_ge by lia.
  - destruct (N.ltb_spec i len); [|lia].
    destruct (lookup_lt_is_Some_2 hash (N.to_nat i)) as [v Hv]; [lia|].
    rewrite Hv, bind_Some, sprintf_02x_spec, (u32_small (i * 2)) by lia.
    replace (N.to_nat (i * 2)) with (2 * N.to_nat i)%nat by lia.
    set (o := (2 * N.to_nat i)%nat) in *.
    case_decide as Hthree; [|rewrite decide_False; [done | lia]].
    rewrite bind_Some, IH by lia.
    assert (length (take o out ++ [hex_hi v; hex_lo v; x00]
                    ++ drop (o + 3) out) = length out) as ->.
    { rewrite !length_app, length_take, length_drop. cbn [length]. lia. }
    case_decide as Hall; [|done]. f_equal.
    replace (N.to_nat (i + 1)) with (S (N.to_nat i)) by lia.
    rewrite (drop_S hash v (N.to_nat i)) by done. rewrite hex_encode_cons.
    replace (2 * S (N.to_nat i))%nat with (o + 2)%nat by lia.
    rewrite take_app_add' by (rewrite length_take; lia).
    rewrite drop_app_ge by (rewrite length_take; lia).
    rewrite length_take.
    replace (2 * length hash + 1 - o `min` length out)%nat
      with (3 + (2 * length hash + 1 - (o + 3)))%nat by lia.
    cbn [app take drop Nat.add]. rewrite drop_drop.
    replace (o + 3 + (2 * length hash + 1 - (o + 3)))%nat
      with (2 * length hash + 1)%nat by lia.
    by rewrite <- !app_assoc.
Qed.

Section HashCalcProperties.

Context {openssl : EVP}.

(** *** One turn of the read loop *)

Lemma read_loop_step file buf ctx :
  read_loop file buf ctx =
  let '(file', buf') := ifstream_read sizeof_buf file buf in
  if negb (failbit file') || negb (gcount file' =? 0)%nat
  then read_loop file' buf' (EVP_DigestUpdate ctx (take (gcount file') buf'))
  else (file', buf', ctx).
Proof.
  funelim (read_loop file buf ctx).
  - by rewrite Hread, Hcond.
  - by rewrite Hread, Hstop.
Qed.

(** *** The read loop feeds the file, piece by piece *)

(** A stream that has failed is not read any further. *)
Lemma read_loop_failed file buf ctx :
  failbit file = true →
  read_loop file buf ctx = (Ifstream (unread file) true 0, buf, ctx).
Proof.
  intros Hfail. rewrite read_loop_step. unfold ifstream_read.
  by rewrite Hfail.
Qed.

(** The bytes handed to [EVP_DigestUpdate] are those just read, whatever
    the buffer held before. *)
Lemma read_buffer_prefix (chunk buf : list byte) :
  take (length chunk) (chunk ++ drop (length chunk) buf) = chunk.
Proof. by rewrite take_app_length. Qed.

Lemma read_loop_chunks data count buf ctx :
  (read_loop (Ifstream data false count) buf ctx).2 =
  fold_left EVP_DigestUpdate (chunks data) ctx.
Proof.
  remember (length data) as n eqn:Hn.
  revert data count buf ctx Hn.
  induction (lt_wf n) as [n _ IH]. intros data count buf ctx ->.
  rewrite read_loop_step. unfold ifstream_read. cbn [failbit unread gcount].
  pose proof sizeof_buf_pos as Hpos.
  destruct data as [|b data].
  - rewrite take_nil, drop_nil. cbn [length].
    destruct (Nat.ltb_spec 0 sizeof_buf); [|lia]. by simp chunks.
  - simp chunks. cbn [fold_left].
    set (chunk := take sizeof_buf (b :: data)).
    assert (0 < length chunk)%nat as Hchunk.
    { unfold chunk. rewrite length_take. cbn [length]. lia. }
    destruct (Nat.eqb_spec (length chunk) 0) as [|_]; [lia|].
    rewrite orb_true_r, read_buffer_prefix.
    destruct (Nat.ltb_spec (length chunk) sizeof_buf) as [Hshort|Hfull].
    + rewrite read_loop_failed by done. cbn [snd].
      replace (drop sizeof_buf (b :: data)) with (@nil byte).
      { by simp chunks. }
      symmetry. apply drop_ge. unfold chunk in Hshort.
      rewrite length_take in Hshort. lia.
    + eapply IH; [|done]. rewrite length_drop. cbn [length]. lia.
Qed.

(** Induction along the reads: from a file to what is left of it after
    one full read. *)
Lemma chunks_induction (P : list byte → Prop) :
  P [] →
  (∀ b data, P (drop sizeof_buf (b :: data)) → P (b :: data)) →
  ∀ data, P data.
Proof.
  intros Hnil Hcons data.
  remember (length data) as n eqn:Hn. revert data Hn.
  induction (lt_wf n) as [n _ IH]. intros [|b data] ->; [done|].
  apply Hcons. eapply IH; [|done].
  rewrite length_drop. pose proof sizeof_buf_pos. cbn [length]. lia.
Qed.

(** The pieces are the file, in order, with nothing left out. *)
Lemma chunks_concat data : concat (chunks data) = data.
Proof.
  induction data as [|b data IH] using chunks_induction; simp chunks; [done|].
  cbn [concat]. rewrite IH. apply take_drop.
Qed.

(** No piece is empty or longer than the buffer. *)
Lemma chunks_length data :
  Forall (λ c, 0 < length c ≤ sizeof_buf)%nat (chunks data).
Proof.
  induction data as [|b data IH] using chunks_induction; simp chunks;
    constructor; [|done].
  rewrite length_take. pose proof sizeof_buf_pos. cbn [length]. lia.
Qed.

(** Every piece but the last fills the buffer. *)
Lemma chunks_full data i c :
  chunks data !! i = Some c → (S i < length (chunks data))%nat →
  length c = sizeof_buf.
Proof.
  revert i. induction data as [|b data IH] using chunks_induction;
    simp chunks; intros i Hi Hlast.
  - by rewrite lookup_nil in Hi.
  - destruct i as [|i]; cbn [lookup list_lookup length] in Hi, Hlast.
    + replace c with (take sizeof_buf (b :: data)) by congruence.
      rewrite length_take.
      destruct (decide (sizeof_buf ≤ length (b :: data))%nat); [lia|].
      rewrite drop_ge in Hlast by lia. simp chunks in Hlast.
      cbn [length] in Hlast. lia.
    + eapply IH; [done | lia].
Qed.

(** *** More on the read loop and on what a call depends on *)

(** A file that fits one read is one piece. *)
Lemma chunks_small data :
  (0 < length data ≤ sizeof_buf)%nat → chunks data = [data].
Proof.
  intros Hlen. destruct data as [|b data]; [cbn [length] in Hlen; lia|].
  simp chunks. rewrite take_ge, drop_ge by lia. by simp chunks.
Qed.

(** X5. When the read loop ends the stream has failed and its last read
    delivered nothing; if the stream was good when the loop began, no byte
    of the file is left unread (a stream that had failed already is left
    as it was). *)
Theorem read_loop_drains file buf ctx :
  let file' := (read_loop file buf ctx).1.1 in
  failbit file' = true ∧ gcount file' = 0%nat ∧
  unread file' = if failbit file then unread file else [].
Proof.
  cbn zeta. funelim (read_loop file buf ctx).
  - destruct H as (Hfail & Hcount & Hrest).
    split; [done|]. split; [done|]. rewrite Hrest.
    pose proof Hread as Hr. unfold ifstream_read in Hr.
    destruct (failbit file).
    + injection Hr as <- _. by cbn in Hcond.
    + injection Hr as <- _. cbn [failbit unread].
      destruct (Nat.ltb_spec (length (take sizeof_buf (unread file)))
                  sizeof_buf) as [Hshort|_]; [|done].
      rewrite length_take in Hshort. apply drop_ge. lia.
  - cbn [fst]. pose proof Hstop as Hs.
    apply orb_false_elim in Hs as [Hfail Hcount].
    apply negb_false_iff in Hfail. apply negb_false_iff, Nat.eqb_eq in Hcount.
    split; [done|]. split; [done|].
    pose proof Hread as Hr. unfold ifstream_read in Hr.
    destruct (failbit file).
    + by injection Hr as <- _.
    + injection Hr as <- _. cbn [gcount unread] in *.
      rewrite length_take in Hcount. pose proof sizeof_buf_pos.
      apply drop_ge. lia.
Qed.

(** X8. A file of at least one and at most 4096 bytes is handed to the
    digest context by a single [EVP_DigestUpdate] with all its bytes, so
    its digest is the one-shot digest whatever the library does with
    several updates. *)
Theorem read_loop_small_file env file_path data ctx md :
  env_fs env !! file_path = Some data →
  (0 < length data ≤ 4096)%nat →
  (read_loop (ifstream_open (env_fs env) file_path) (env_buf env) ctx).2
    = EVP_DigestUpdate ctx data ∧
  digest_chunked md data = digest_oneshot md data.
Proof.
  intros Hfs Hlen. change 4096%nat with sizeof_buf in Hlen.
  unfold ifstream_open, digest_chunked, digest_oneshot.
  by rewrite Hfs, read_loop_chunks, chunks_small.
Qed.


(** X1. Whatever the reason for a non-zero status (unknown name, no
    context, file not opened, capacity too small), [out] is left exactly
    as it was: no failure path writes. *)
Theorem hash_file_failure_leaves_out
    env algo_name file_path out out_len status out' :
  hash_file env algo_name file_path out out_len = Some (status, out') →
  status ≠ 0%Z →
  out' = out.
Proof.
  unfold hash_file. intros Hrun Hstatus.
  destruct (EVP_get_digestbyname algo_name) as [md|]; [|congruence].
  destruct (negb (env_ctx_new env)); [congruence|].
  destruct (failbit _); [congruence|].
  destruct (buffer_too_small _ _); [congruence|].
  destruct (hex_loop _ _ _ _) as [out1|]; [|done].
  rewrite bind_Some in Hrun.
  destruct (store _ _ _) as [out2|]; [|done].
  rewrite bind_Some in Hrun. congruence.
Qed.

(** *** What the library promises

    The laws of the EVP interface that the program relies on: feeding a
    context in pieces is feeding it the concatenation (and feeding it
    nothing changes nothing); a digest has at most [EVP_MAX_MD_SIZE]
    bytes; and the array bound [EVP_MAX_MD_SIZE * 2 + 1] of [main] is an
    [unsigned int]. *)
Hypothesis EVP_DigestUpdate_nil :
  ∀ ctx, EVP_DigestUpdate ctx [] = ctx.
Hypothesis EVP_DigestUpdate_app :
  ∀ ctx a b,
    EVP_DigestUpdate (EVP_DigestUpdate ctx a) b = EVP_DigestUpdate ctx (a ++ b).
Hypothesis EVP_DigestFinal_ex_size :
  ∀ ctx, N.of_nat (length (EVP_DigestFinal_ex ctx)) ≤ EVP_MAX_MD_SIZE.
Hypothesis EVP_MAX_MD_SIZE_fits : EVP_MAX_MD_SIZE * 2 + 1 < 2 ^ 32.

Lemma fold_left_EVP_DigestUpdate pieces ctx :
  fold_left EVP_DigestUpdate pieces ctx = EVP_DigestUpdate ctx (concat pieces).
Proof.
  revert ctx. induction pieces as [|piece pieces IH]; intros ctx; simpl.
  - by rewrite EVP_DigestUpdate_nil.
  - by rewrite IH, EVP_DigestUpdate_app.
Qed.

Lemma digest_chunked_oneshot md data :
  digest_chunked md data = digest_oneshot md data.
Proof.
  unfold digest_chunked, digest_oneshot.
  by rewrite fold_left_EVP_DigestUpdate, chunks_concat.
Qed.

Lemma buffer_too_small_spec out_len ctx :
  let len := N.of_nat (length (EVP_DigestFinal_ex ctx)) in
  buffer_too_small out_len len = (out_len <? 2 * len + 1).
Proof.
  intros len. pose proof (EVP_DigestFinal_ex_size ctx).
  unfold buffer_too_small, len.
  rewrite (u32_small (_ * 2)) by lia. rewrite u32_small by lia.
  f_equal. lia.
Qed.

(** *** The four ways out of [hash_file] *)

Lemma hash_file_unknown env algo_name file_path out out_len :
  EVP_get_digestbyname algo_name = None →
  hash_file env algo_name file_path out out_len = Some (1%Z, out).
Proof. intros Hmd. unfold hash_file. by rewrite Hmd. Qed.

Lemma hash_file_no_ctx env algo_name file_path out out_len :
  env_ctx_new env = false →
  hash_file env algo_name file_path out out_len = Some (1%Z, out).
Proof.
  intros Hctx. unfold hash_file. rewrite Hctx.
  by destruct (EVP_get_digestbyname algo_name).
Qed.

Lemma hash_file_no_file env algo_name file_path out out_len :
  env_fs env !! file_path = None →
  hash_file env algo_name file_path out out_len = Some (1%Z, out).
Proof.
  intros Hfs. unfold hash_file, ifstream_open. rewrite Hfs.
  destruct (EVP_get_digestbyname algo_name); [|done].
  by destruct (env_ctx_new env).
Qed.

(** With the digest resolved, a context at hand and the file open, the
    call hashes the pieces of the file; then it either refuses a capacity
    below [2 * len + 1] and leaves [out] alone, or writes the text and the
    NUL over the first [2 * len + 1] characters of [out]. *)
Lemma hash_file_opened env algo_name file_path out out_len md data :
  EVP_get_digestbyname algo_name = Some md →
  env_ctx_new env = true →
  env_fs env !! file_path = Some data →
  let digest := digest_chunked md data in
  hash_file env algo_name file_path out out_len =
  if out_len <? 2 * N.of_nat (length digest) + 1 then Some (1%Z, out)
  else if decide (2 * length digest + 1 ≤ length out)%nat
  then Some (0%Z, hex_encode digest ++ x00 :: drop (2 * length digest + 1) out)
  else None.
Proof.
  intros Hmd Hctx Hfs digest.
  unfold hash_file, ifstream_open. rewrite Hmd, Hctx, Hfs.
  cbn [negb failbit]. rewrite read_loop_chunks. fold (digest_chunked md data).
  fold digest. unfold digest at 1 2 3, digest_chunked.
  rewrite buffer_too_small_spec. fold (digest_chunked md data). fold digest.
  destruct (out_len <? 2 * N.of_nat (length digest) + 1); [done|].
  pose proof (EVP_DigestFinal_ex_size
    (fold_left EVP_DigestUpdate (chunks data) (EVP_DigestInit_ex md))) as Hsize.
  fold (digest_chunked md data) in Hsize. fold digest in Hsize.
  pose proof (hex_loop_store 0 digest out) as Hloop.
  cbn zeta in Hloop. specialize (Hloop ltac:(lia) ltac:(lia)).
  rewrite take_0, drop_0 in Hloop.
  destruct (hex_loop 0 (N.of_nat (length digest)) digest out) as [out1|].
  - rewrite bind_Some in Hloop. rewrite bind_Some, Hloop. by case_decide.
  - rewrite bind_None in Hloop. rewrite bind_None. by case_decide.
Qed.

(** Every call leaves by one of the three early returns or reaches the
    capacity test. *)
Lemma hash_file_cases env algo_name file_path out out_len :
  (hash_file env algo_name file_path out out_len = Some (1%Z, out) ∧
   (EVP_get_digestbyname algo_name = None ∨ env_ctx_new env = false ∨
    env_fs env !! file_path = None)) ∨
  (∃ md data,
     EVP_get_digestbyname algo_name = Some md ∧ env_ctx_new env = true ∧
     env_fs env !! file_path = Some data ∧
     let digest := digest_chunked md data in
     hash_file env algo_name file_path out out_len =
     if out_len <? 2 * N.of_nat (length digest) + 1 then Some (1%Z, out)
     else if decide (2 * length digest + 1 ≤ length out)%nat
     then Some (0%Z,
                hex_encode digest ++ x00 :: drop (2 * length digest + 1) out)
     else None).
Proof.
  destruct (EVP_get_digestbyname algo_name) as [md|] eqn:Hmd;
    [|left; split; [by apply hash_file_unknown | auto]].
  destruct (env_ctx_new env) eqn:Hctx;
    [|left; split; [by apply hash_file_no_ctx | auto]].
  destruct (env_fs env !! file_path) as [data|] eqn:Hfs;
    [|left; split; [by apply hash_file_no_file | auto]].
  right. exists md, data. repeat split; try done.
  by apply hash_file_opened.
Qed.

(** The text of a digest followed by a NUL is a hexadecimal string. *)
Lemma holds_hex_string_intro digest rest :
  holds_hex_string (hex_encode digest ++ x00 :: rest) digest.
Proof.
  pose proof (hex_encode_length digest) as Hlen.
  repeat split.
  - intros i v Hv. destruct (hex_encode_lookup digest i v Hv) as [Hhi Hlo].
    apply lookup_lt_Some in Hv.
    exists (hex_hi v), (hex_lo v).
    rewrite !lookup_app_l by lia. repeat split; try done.
    + apply hex_hi_elem.
    + apply hex_lo_elem.
    + destruct (hex_val_byte v) as (hi & lo & ? & ? & _ & _ & ?).
      exists hi, lo. repeat split; assumption.
  - by apply list_lookup_middle.
  - rewrite c_str_hex_encode. by rewrite take_app_length'.
Qed.

(** [main] with two arguments after the program name. *)
Lemma main_two_arguments env argv0 algo path :
  main env [argv0; algo; path] =
  '(status, out) ← hash_file env algo path (env_out env)
                      (EVP_MAX_MD_SIZE * 2 + 1);
  if negb (status =? 0)%Z then Some (1%Z, [], [])
  else line ← c_str out; Some (0%Z, line ++ [x0a], []).
Proof. done. Qed.

(** *** The claims of the specification *)


(** C2. For a file that can be opened, the read loop hands the digest
    context the pieces of the file: they are the file's bytes in order with
    none left out, each between 1 and 4096 bytes long and every one but
    the last exactly 4096; and finalising the context so fed gives the
    digest of the whole contents fed in one piece. *)
Theorem read_loop_oneshot env file_path data md :
  env_fs env !! file_path = Some data →
  let file := ifstream_open (env_fs env) file_path in
  let ctx := (read_loop file (env_buf env) (EVP_DigestInit_ex md)).2 in
  ctx = fold_left EVP_DigestUpdate (chunks data) (EVP_DigestInit_ex md) ∧
  concat (chunks data) = data ∧
  Forall (λ c, 0 < length c ≤ sizeof_buf)%nat (chunks data) ∧
  (∀ i c, chunks data !! i = Some c → (S i < length (chunks data))%nat →
          length c = sizeof_buf) ∧
  ctx = EVP_DigestUpdate (EVP_DigestInit_ex md) data ∧
  EVP_DigestFinal_ex ctx = digest_oneshot md data.
Proof.
  intros Hfs file ctx. unfold ctx, file, ifstream_open. rewrite Hfs.
  rewrite read_loop_chunks.
  split; [done|]. split; [apply chunks_concat|].
  split; [apply chunks_length|]. split; [apply chunks_full|].
  unfold digest_oneshot.
  by rewrite fold_left_EVP_DigestUpdate, chunks_concat.
Qed.


(** C4. When the algorithm name does not resolve, and when it resolves
    but the file cannot be opened, [hash_file] returns a non-zero status
    and [out] is as it was. *)
Theorem hash_file_unknown_or_unopenable
    env algo_name file_path out out_len :
  EVP_get_digestbyname algo_name = None ∨
  (is_Some (EVP_get_digestbyname algo_name) ∧
   env_fs env !! file_path = None) →
  ∃ status,
    hash_file env algo_name file_path out out_len = Some (status, out) ∧
    status ≠ 0%Z.
Proof.
  intros [Hmd|[_ Hfs]]; exists 1%Z; split; try done.
  - by apply hash_file_unknown.
  - by apply hash_file_no_file.
Qed.



(** C7. Started with any number of arguments other than two after the
    program name, [main] writes the line "usage: ", the program name,
    " <algo> <file>" and a newline to standard error, writes nothing to
    standard output and exits with status 1; this is so on every machine,
    whatever its files and whatever [hash_file] would do there, as
    [hash_file] is not called. *)
Theorem main_wrong_argument_count env argv0 args :
  length args ≠ 2%nat →
  main env (argv0 :: args) =
  Some (1%Z, [],
        String.list_byte_of_string "usage: "
        ++ String.list_byte_of_string argv0
        ++ String.list_byte_of_string " <algo> <file>" ++ [x0a]).
Proof.
  intros Hargs. unfold main. cbn [length].
  destruct (Nat.eqb_spec (S (length args)) 3) as [Heq|_]; [|done].
  injection Heq as Heq. by destruct Hargs.
Qed.




(** *** Further properties of [hash_file] and [main] *)

(** The string a successful call leaves. *)
Lemma hash_file_success_c_str
    env algo_name file_path out out_len out' md data :
  EVP_get_digestbyname algo_name = Some md →
  env_fs env !! file_path = Some data →
  hash_file env algo_name file_path out out_len = Some (0%Z, out') →
  c_str out' = Some (hex_encode (digest_chunked md data)).
Proof.
  intros Hmd Hfs Hrun.
  destruct (hash_file_cases env algo_name file_path out out_len)
    as [[Hfail _]|(md' & data' & Hmd' & _ & Hfs' & Hopen)]; [congruence|].
  rewrite Hmd in Hmd'. rewrite Hfs in Hfs'.
  injection Hmd' as <-. injection Hfs' as <-.
  cbn zeta in Hopen. rewrite Hopen in Hrun.
  destruct (out_len <? _); [done|]. case_decide; [|done].
  injection Hrun as <-. apply c_str_hex_encode.
Qed.





End HashCalcProperties.

(** * The checksum library at work *)

#[local] Existing Instance Checksum.lib.

(** ** The library keeps the promises *)

Lemma checksum_update_nil (ctx : Checksum.md * N) : Checksum.update ctx [] = ctx.
Proof. by destruct ctx. Qed.

Lemma checksum_update_app (ctx : Checksum.md * N) (a b : list byte) :
  Checksum.update (Checksum.update ctx a) b = Checksum.update ctx (a ++ b).
Proof. unfold Checksum.update. cbn [fst snd]. by rewrite fold_left_app. Qed.

Lemma checksum_final_size (ctx : Checksum.md * N) :
  N.of_nat (length (Checksum.final ctx)) ≤ 64.
Proof. destruct ctx as [[] sum]; cbn; lia. Qed.

Lemma checksum_max_md_size_fits : 64 * 2 + 1 < 2 ^ 32.
Proof. reflexivity. Qed.

(** ** Runs of the program *)

Example hash_file_abc :
  hash_file Checksum.env "sum16" "abc.txt" (replicate 8 xff) 5 =
  Some (0%Z, String.list_byte_of_string "0126" ++ [x00; xff; xff; xff]).
Proof. vm_compute. reflexivity. Qed.

Example hash_file_big :
  map length (chunks (replicate 5000 x01)) = [4096; 904]%nat ∧
  hash_file Checksum.env "sum16" "big" (replicate 5 xff) 5 =
  Some (0%Z, String.list_byte_of_string "1388" ++ [x00]).
Proof. split; vm_compute; reflexivity. Qed.

Example hash_file_capacity_4 :
  hash_file Checksum.env "sum16" "abc.txt" (replicate 8 xff) 4 =
  Some (1%Z, replicate 8 xff).
Proof. vm_compute. reflexivity. Qed.

(** A capacity the array does not have: the writes leave the array. *)
Example hash_file_short_array :
  hash_file Checksum.env "sum16" "abc.txt" (replicate 3 xff) 8 = None.
Proof. vm_compute. reflexivity. Qed.

Example main_abc :
  main Checksum.env ["hash_calc"; "sum16"; "abc.txt"] =
  Some (0%Z, String.list_byte_of_string "0126" ++ [x0a], []).
Proof. vm_compute. reflexivity. Qed.

Example main_one_argument :
  main Checksum.env ["hash_calc"; "sum16"] =
  Some (1%Z, [],
        String.list_byte_of_string "usage: hash_calc <algo> <file>" ++ [x0a]).
Proof. vm_compute. reflexivity. Qed.

(** ** The theorems at these runs *)


Lemma read_loop_oneshot_witness :
  let data := replicate 5000 x01 in
  let md := Checksum.Sum16 in
  env_fs Checksum.env !! "big" = Some data ∧
  let file := ifstream_open (env_fs Checksum.env) "big" in
  let ctx := (read_loop file (env_buf Checksum.env) (EVP_DigestInit_ex md)).2 in
  ctx = fold_left EVP_DigestUpdate (chunks data) (EVP_DigestInit_ex md) ∧
  concat (chunks data) = data ∧
  Forall (λ c, 0 < length c ≤ sizeof_buf)%nat (chunks data) ∧
  (∀ i c, chunks data !! i = Some c → (S i < length (chunks data))%nat →
          length c = sizeof_buf) ∧
  ctx = EVP_DigestUpdate (EVP_DigestInit_ex md) data ∧
  EVP_DigestFinal_ex ctx = digest_oneshot md data.
Proof.
  intros data md.
  assert (env_fs Checksum.env !! "big" = Some data)
    as Hfs by (vm_compute; reflexivity).
  split; [exact Hfs|].
  exact (read_loop_oneshot (openssl := Checksum.lib)
           checksum_update_nil checksum_update_app
           Checksum.env "big" data md Hfs).
Defined.


Lemma hash_file_unknown_or_unopenable_witness :
  let out := replicate 8 xff in
  (EVP_get_digestbyname "notarealalgo" = None ∧
   ∃ status,
     hash_file Checksum.env "notarealalgo" "abc.txt" out 8
       = Some (status, out) ∧
     status ≠ 0%Z) ∧
  (is_Some (EVP_get_digestbyname "sum8") ∧
   env_fs Checksum.env !! "missing" = None ∧
   ∃ status,
     hash_file Checksum.env "sum8" "missing" out 8 = Some (status, out) ∧
     status ≠ 0%Z).
Proof.
  intros out.
  assert (EVP_get_digestbyname "notarealalgo" = None) as Hmd by reflexivity.
  assert (is_Some (EVP_get_digestbyname "sum8")) as Hsum8 by (by eexists).
  assert (env_fs Checksum.env !! "missing" = None)
    as Hfs by (vm_compute; reflexivity).
  split.
  - split; [exact Hmd|].
    exact (hash_file_unknown_or_unopenable (openssl := Checksum.lib)
             Checksum.env "notarealalgo" "abc.txt" out 8 (or_introl Hmd)).
  - split; [exact Hsum8|]. split; [exact Hfs|].
    exact (hash_file_unknown_or_unopenable (openssl := Checksum.lib)
             Checksum.env "sum8" "missing" out 8
             (or_intror (conj Hsum8 Hfs))).
Defined.



Lemma main_wrong_argument_count_witness :
  let line :=
    String.list_byte_of_string "usage: hash_calc <algo> <file>" ++ [x0a] in
  (length (@nil string) ≠ 2%nat ∧
   main Checksum.env ["hash_calc"] = Some (1%Z, [], line)) ∧
  (length ["sum16"] ≠ 2%nat ∧
   main Checksum.env ["hash_calc"; "sum16"] = Some (1%Z, [], line)) ∧
  (length ["sum16"; "abc.txt"; "extra"] ≠ 2%nat ∧
   main Checksum.env ["hash_calc"; "sum16"; "abc.txt"; "extra"]
     = Some (1%Z, [], line)).
Proof.
  intros line.
  assert (length (@nil string) ≠ 2%nat) as H0 by (simpl; lia).
  assert (length ["sum16"] ≠ 2%nat) as H1 by (simpl; lia).
  assert (length ["sum16"; "abc.txt"; "extra"] ≠ 2%nat)
    as H3 by (simpl; lia).
  split; [|split]; (split; [assumption|]).
  - exact (main_wrong_argument_count (openssl := Checksum.lib)
             Checksum.env "hash_calc" [] H0).
  - exact (main_wrong_argument_count (openssl := Checksum.lib)
             Checksum.env "hash_calc" ["sum16"] H1).
  - exact (main_wrong_argument_count (openssl := Checksum.lib)
             Checksum.env "hash_calc" ["sum16"; "abc.txt"; "extra"] H3).
Defined.




(** ** The further properties at these runs *)

Lemma hash_file_failure_leaves_out_witness :
  let env := {| env_fs := env_fs Checksum.env; env_ctx_new := false;
                env_buf := []; env_out := [] |} in
  let out := replicate 8 xff in
  hash_file env "sum16" "abc.txt" out 8 = Some (1%Z, out) ∧
  1%Z ≠ 0%Z ∧
  out = out.
Proof.
  intros env out.
  assert (hash_file env "sum16" "abc.txt" out 8 = Some (1%Z, out))
    as Hrun by (vm_compute; reflexivity).
  assert (1%Z ≠ 0%Z) as Hstatus by lia.
  split; [exact Hrun|]. split; [exact Hstatus|].
  exact (hash_file_failure_leaves_out (openssl := Checksum.lib)
           env "sum16" "abc.txt" out 8 1%Z out Hrun Hstatus).
Defined.






Lemma read_loop_small_file_witness :
  let data := String.list_byte_of_string "abc" in
  let md := Checksum.Sum16 in
  let ctx := EVP_DigestInit_ex md in
  env_fs Checksum.env !! "abc.txt" = Some data ∧
  (0 < length data ≤ 4096)%nat ∧
  (read_loop (ifstream_open (env_fs Checksum.env) "abc.txt")
     (env_buf Checksum.env) ctx).2 = EVP_DigestUpdate ctx data ∧
  digest_chunked md data = digest_oneshot md data.
Proof.
  intros data md ctx.
  assert (env_fs Checksum.env !! "abc.txt" = Some data)
    as Hfs by (vm_compute; reflexivity).
  assert (0 < length data ≤ 4096)%nat as Hlen by (cbn; lia).
  split; [exact Hfs|]. split; [exact Hlen|].
  exact (read_loop_small_file (openssl := Checksum.lib)
           Checksum.env "abc.txt" data ctx md Hfs Hlen).
Defined.

(** ** Where [EVP_MD_CTX_new] fails

    A machine like [Checksum.env] but without memory for a digest context:
    [hash_file] returns at [if (!ctx) return 1;], before the file is
    opened. *)


